(** * A shallow embedding of [ChunkList<T, N>] from [src/main.rs]

    The Rust crate stores a deque as a [VecDeque] of fixed-capacity
    [Chunk]s, each a [Vec<T>] of at most [N] elements, plus a cached
    [elements_count].  We model:
    - [Vec<T>] and [VecDeque<_>] as Rocq lists (front = head);
    - [usize] as [nat]; a subtraction that would underflow in Rust is a
      panic (overflow checks are on in debug and test builds; in release
      builds the wrapped index of [ChunkList::remove] is always [>= N] and
      makes [Chunk::remove] panic instead, so the outcome is the same);
    - [panic!()] and [Option::unwrap] on [None] as the [Panic] outcome of
      the small result monad [Res]. *)

From Stdlib Require Import List Arith Lia.
Import ListNotations.

(** ** The panic monad *)

Inductive Res (X : Type) : Type :=
| Ret : X -> Res X
| Panic : Res X.

Arguments Ret {X} _.
Arguments Panic {X}.

Definition res_bind {X Y : Type} (m : Res X) (k : X -> Res Y) : Res Y :=
  match m with
  | Ret x => k x
  | Panic => Panic
  end.

Notation "x <- m ;; k" := (res_bind m (fun x => k))
  (at level 61, m at next level, right associativity).

(** ** List helpers standing for [Vec] and [VecDeque] methods *)

(** [Vec::remove(i)] / [VecDeque::remove(i)] without the element. *)
Definition remove_at {X : Type} (i : nat) (l : list X) : list X :=
  firstn i l ++ skipn (S i) l.

(** Writing back a chunk obtained by [get_mut(i)]. *)
Fixpoint set_nth {X : Type} (l : list X) (i : nat) (x : X) : list X :=
  match l, i with
  | [], _ => []
  | _ :: r, 0 => x :: r
  | y :: r, S i' => y :: set_nth r i' x
  end.

(** [Vec::rotate_right(1)]: the last element moves to the front. *)
Definition rotate_right1 {X : Type} (l : list X) : list X :=
  match rev l with
  | [] => []
  | x :: r => x :: rev r
  end.

Section ChunkListModel.

Variable T : Type.
(** The const generic [N] of [Chunk<T, N>] and [ChunkList<T, N>]. *)
Variable N : nat.

(** ** [Chunk<T, N>] *)

Record Chunk : Type := mkChunk { elements : list T }.

Definition chunk_new : Chunk := mkChunk [].

Definition chunk_len (c : Chunk) : nat := length (elements c).

Definition chunk_is_empty (c : Chunk) : bool := chunk_len c =? 0.

Definition chunk_is_full (c : Chunk) : bool := chunk_len c =? N.

(** Returns [false] in case of chunk overflow. *)
Definition chunk_push_back (c : Chunk) (value : T) : bool * Chunk :=
  if chunk_is_full c then (false, c)
  else (true, mkChunk (elements c ++ [value])).

Definition chunk_push_front (c : Chunk) (value : T) : bool * Chunk :=
  if chunk_is_full c then (false, c)
  else (true, mkChunk (rotate_right1 (elements c ++ [value]))).

(** [self.elements.pop()] *)
Definition chunk_pop_back (c : Chunk) : option T * Chunk :=
  match rev (elements c) with
  | [] => (None, c)
  | x :: r => (Some x, mkChunk (rev r))
  end.

Definition chunk_get (c : Chunk) (i : nat) : Res (option T) :=
  if N <=? i then Panic
  else Ret (nth_error (elements c) i).

Definition chunk_remove (c : Chunk) (i : nat) : Res (option T * Chunk) :=
  if N <=? i then Panic
  else if length (elements c) <=? i then Ret (None, c)
  else match nth_error (elements c) i with
       | Some x => Ret (Some x, mkChunk (remove_at i (elements c)))
       | None => Panic (* [Vec::remove] out of bounds; unreachable *)
       end.

Definition chunk_pop_front (c : Chunk) : Res (option T * Chunk) :=
  chunk_remove c 0.

(** ** [ChunkList<T, N>] *)

Record ChunkList : Type := mkChunkList {
  chunks : list Chunk;
  elements_count : nat
}.

Definition new : Res ChunkList :=
  if N <? 1 then Panic
  else Ret (mkChunkList [] 0).

Definition push_back (l : ChunkList) (value : T) : ChunkList :=
  (* [match self.chunks.back_mut() { Some(back) => back,
                                     None => self.add_new_chunk_back() }] *)
  let cs0 :=
    match rev (chunks l) with
    | [] => chunks l ++ [chunk_new]
    | _ => chunks l
    end in
  let cs1 :=
    match rev cs0 with
    | [] => cs0
    | chunk :: rfront =>
        if chunk_is_full chunk
        then cs0 ++ [snd (chunk_push_back chunk_new value)]
        else rev rfront ++ [snd (chunk_push_back chunk value)]
    end in
  mkChunkList cs1 (S (elements_count l)).

Definition push_front (l : ChunkList) (value : T) : ChunkList :=
  let cs :=
    match chunks l with
    | [] => [snd (chunk_push_front chunk_new value)]
    | chunk :: rest =>
        if chunk_is_full chunk
        then snd (chunk_push_front chunk_new value) :: chunk :: rest
        else snd (chunk_push_front chunk value) :: rest
    end in
  mkChunkList cs (S (elements_count l)).

Definition pop_back (l : ChunkList) : Res (option T * ChunkList) :=
  match rev (chunks l) with
  | [] => Ret (None, l)
  | chunk :: rfront =>
      match chunk_pop_back chunk with
      | (None, _) => Panic (* [.unwrap()] *)
      | (Some value, chunk') =>
          let cs := if chunk_is_empty chunk' then rev rfront
                    else rev rfront ++ [chunk'] in
          if elements_count l =? 0 then Panic (* [elements_count -= 1] *)
          else Ret (Some value, mkChunkList cs (pred (elements_count l)))
      end
  end.

Definition chunks_count (l : ChunkList) : nat := length (chunks l).

(** [clear] empties [self.chunks] and nothing else. *)
Definition clear (l : ChunkList) : ChunkList :=
  mkChunkList [] (elements_count l).

(** The [while let] loop of [ChunkList::remove]: returns the final
    [(chunk_i, count)]. *)
Fixpoint remove_scan (i : nat) (cs : list Chunk) (chunk_i count : nat)
  : nat * nat :=
  match cs with
  | [] => (chunk_i, count)
  | chunk :: rest =>
      if i <=? count + chunk_len chunk then (chunk_i, count)
      else remove_scan i rest (S chunk_i) (count + chunk_len chunk)
  end.

Definition remove (l : ChunkList) (i : nat) : Res (option T * ChunkList) :=
  let '(chunk_i, count) := remove_scan i (chunks l) 0 0 in
  match nth_error (chunks l) chunk_i with
  | None => Ret (None, l)
  | Some chunk =>
      if count <? i then Panic (* [count - i] underflows *)
      else
        let element_i := count - i in
        r <- chunk_remove chunk element_i ;;
        let '(value, chunk') := r in
        let cs := set_nth (chunks l) chunk_i chunk' in
        (* [self.remove_chunk(i)]: [VecDeque::remove] is a no-op out of range *)
        let cs := if chunk_is_empty chunk'
                  then (if i <? length cs then remove_at i cs else cs)
                  else cs in
        if elements_count l =? 0 then Panic (* [elements_count -= 1] *)
        else Ret (value, mkChunkList cs (pred (elements_count l)))
  end.

Definition pop_front (l : ChunkList) : Res (option T * ChunkList) :=
  remove l 0.

(** ** The borrowing iterator [Iter] *)

(** [Iter::next], with [rest] the chunks from position [chunk_i] on
    (so [self.chunk_list.chunks.get(self.chunk_i)] is the head of [rest]).
    The recursive call in the [None] branch advances [chunk_i], i.e. walks
    down [rest].  Returns the item and the new [(chunk_i, element_i)]. *)
Fixpoint iter_next_from (rest : list Chunk) (chunk_i element_i : nat)
  : Res (option T * nat * nat) :=
  match rest with
  | [] => Ret (None, chunk_i, element_i)
  | chunk :: rest' =>
      v <- chunk_get chunk element_i ;;
      r <- match v with
           | None => iter_next_from rest' (S chunk_i) 0
           | Some value => Ret (Some value, chunk_i, element_i)
           end ;;
      let '(value, ci, ei) := r in
      let ei := S ei in
      if chunk_len chunk <=? ei then Ret (value, S ci, 0)
      else Ret (value, ci, ei)
  end.

Definition iter_next (l : ChunkList) (chunk_i element_i : nat)
  : Res (option T * nat * nat) :=
  iter_next_from (skipn chunk_i (chunks l)) chunk_i element_i.

(** [Iterator::nth]: [advance_by(n)] then [next()]. *)
Fixpoint iter_nth (l : ChunkList) (n chunk_i element_i : nat)
  : Res (option T) :=
  r <- iter_next l chunk_i element_i ;;
  let '(value, ci, ei) := r in
  match n with
  | 0 => Ret value
  | S n' =>
      match value with
      | None => Ret None
      | Some _ => iter_nth l n' ci ei
      end
  end.

(** The first [n] results of repeated [next()] calls on [l.iter()]. *)
Fixpoint iter_take (l : ChunkList) (n chunk_i element_i : nat)
  : Res (list (option T)) :=
  match n with
  | 0 => Ret []
  | S n' =>
      r <- iter_next l chunk_i element_i ;;
      let '(value, ci, ei) := r in
      vs <- iter_take l n' ci ei ;;
      Ret (value :: vs)
  end.

Definition get (l : ChunkList) (i : nat) : Res (option T) :=
  iter_nth l i 0 0.

(** [ChunkList::new_filled]: [new()] then [count] times [push_back]. *)
Fixpoint push_back_n (count : nat) (value : T) (l : ChunkList) : ChunkList :=
  match count with
  | 0 => l
  | S k => push_back_n k value (push_back l value)
  end.

Definition new_filled (count : nat) (value : T) : Res ChunkList :=
  l <- new ;; Ret (push_back_n count value l).

(** [add_new_chunk_front] / [add_new_chunk_back]; the returned [&mut]
    handle is the new empty chunk, so only the updated list is kept. *)
Definition add_new_chunk_front (l : ChunkList) : ChunkList :=
  mkChunkList (chunk_new :: chunks l) (elements_count l).

Definition add_new_chunk_back (l : ChunkList) : ChunkList :=
  mkChunkList (chunks l ++ [chunk_new]) (elements_count l).

(** ** The consuming iterator [IntoIter] *)

(** [IntoIter::next]: pops the front element of the front chunk and drops
    that chunk once it is empty; [elements_count] is left as it is. *)
Definition into_iter_next (l : ChunkList) : Res (option T * ChunkList) :=
  match chunks l with
  | [] => Ret (None, l)
  | front_chunk :: rest =>
      r <- chunk_pop_front front_chunk ;;
      let '(value, front_chunk') := r in
      let cs := if chunk_is_empty front_chunk' then rest
                else front_chunk' :: rest in
      Ret (value, mkChunkList cs (elements_count l))
  end.

(** The first [n] results of repeated [next()] calls on [into_iter()]. *)
Fixpoint into_iter_take (n : nat) (l : ChunkList) : Res (list (option T)) :=
  match n with
  | 0 => Ret []
  | S n' =>
      r <- into_iter_next l ;;
      let '(value, l') := r in
      vs <- into_iter_take n' l' ;;
      Ret (value :: vs)
  end.

End ChunkListModel.

Arguments chunk_new {T}.
Arguments mkChunk {T} _.
Arguments mkChunkList {T} _ _.
Arguments chunks {T} _.
Arguments elements_count {T} _.
Arguments elements {T} _.
Arguments chunk_len {T} c.
Arguments chunk_is_empty {T} c.
Arguments chunk_is_full {T} N c.
Arguments chunk_push_back {T} N c value.
Arguments chunk_push_front {T} N c value.
Arguments chunk_pop_back {T} c.
Arguments chunk_get {T} N c i.
Arguments chunk_remove {T} N c i.
Arguments new {T} N.
Arguments push_back {T} N l value.
Arguments push_front {T} N l value.
Arguments pop_back {T} l.
Arguments chunks_count {T} l.
Arguments clear {T} l.
Arguments remove_scan {T} i cs chunk_i count.
Arguments remove {T} N l i.
Arguments pop_front {T} N l.
Arguments iter_next_from {T} N rest chunk_i element_i.
Arguments iter_next {T} N l chunk_i element_i.
Arguments iter_nth {T} N l n chunk_i element_i.
Arguments iter_take {T} N l n chunk_i element_i.
Arguments get {T} N l i.
Arguments push_back_n {T} N count value l.
Arguments new_filled {T} N count value.
Arguments add_new_chunk_front {T} l.
Arguments add_new_chunk_back {T} l.
Arguments chunk_pop_front {T} N c.
Arguments into_iter_next {T} N l.
Arguments into_iter_take {T} N n l.

(** ** Abstraction and invariants *)

Section Invariants.

Context {T : Type}.

(** The logical contents, front to back. *)
Definition flat (l : ChunkList T) : list T :=
  concat (map elements (chunks l)).

(** Every chunk present holds between 1 and [N] elements. *)
Definition chunk_ok (N : nat) (c : Chunk T) : Prop :=
  1 <= chunk_len c <= N.

Definition chunks_wf (N : nat) (cs : list (Chunk T)) : Prop :=
  Forall (chunk_ok N) cs.

(** Total length of all chunks. *)
Definition chunks_total (l : ChunkList T) : nat :=
  fold_right (fun c acc => chunk_len c + acc) 0 (chunks l).

(** The public operations of the deque, their results dropped. *)
Inductive Op : Type :=
| OpPushFront (v : T)
| OpPushBack (v : T)
| OpPopFront
| OpPopBack
| OpRemove (i : nat)
| OpClear.

Definition apply_op (N : nat) (op : Op) (l : ChunkList T) : Res (ChunkList T) :=
  match op with
  | OpPushFront v => Ret (push_front N l v)
  | OpPushBack v => Ret (push_back N l v)
  | OpPopFront => r <- pop_front N l ;; Ret (snd r)
  | OpPopBack => r <- pop_back l ;; Ret (snd r)
  | OpRemove i => r <- remove N l i ;; Ret (snd r)
  | OpClear => Ret (clear l)
  end.

(** Deques reachable from [ChunkList::new()] by completed operations. *)
Inductive reachable (N : nat) : ChunkList T -> Prop :=
| reach_new l : new N = Ret l -> reachable N l
| reach_op l op l' : reachable N l -> apply_op N op l = Ret l' -> reachable N l'.

Fixpoint push_front_all (N : nat) (vs : list T) (l : ChunkList T) : ChunkList T :=
  match vs with
  | [] => l
  | v :: vs' => push_front_all N vs' (push_front N l v)
  end.

Fixpoint push_back_all (N : nat) (vs : list T) (l : ChunkList T) : ChunkList T :=
  match vs with
  | [] => l
  | v :: vs' => push_back_all N vs' (push_back N l v)
  end.

(** The results of [n] successive [pop_front] calls. *)
Fixpoint drain_front (N n : nat) (l : ChunkList T) : Res (list (option T)) :=
  match n with
  | 0 => Ret []
  | S n' =>
      r <- pop_front N l ;;
      let '(v, l') := r in
      vs <- drain_front N n' l' ;;
      Ret (v :: vs)
  end.

Fixpoint drain_back (N n : nat) (l : ChunkList T) : Res (list (option T)) :=
  match n with
  | 0 => Ret []
  | S n' =>
      r <- pop_back l ;;
      let '(v, l') := r in
      vs <- drain_back N n' l' ;;
      Ret (v :: vs)
  end.

End Invariants.

(** ** Lemmas *)

Section Lemmas.

Context {T : Type}.
Implicit Types (l : ChunkList T) (c : Chunk T) (cs : list (Chunk T)).

Lemma rotate_right1_snoc (xs : list T) (v : T) :
  rotate_right1 (xs ++ [v]) = v :: xs.
Proof.
  unfold rotate_right1. rewrite rev_app_distr. simpl.
  now rewrite rev_involutive.
Qed.

Lemma rev_cons_eq {X : Type} (l : list X) x r :
  rev l = x :: r -> l = rev r ++ [x].
Proof.
  intros H. rewrite <- (rev_involutive l), H. reflexivity.
Qed.

Lemma rev_nil_eq {X : Type} (l : list X) : rev l = [] -> l = [].
Proof.
  intros H. rewrite <- (rev_involutive l), H. reflexivity.
Qed.


Lemma chunks_wf_app N cs1 cs2 :
  chunks_wf N (cs1 ++ cs2) <-> chunks_wf N cs1 /\ chunks_wf N cs2.
Proof. unfold chunks_wf. apply Forall_app. Qed.

Lemma flat_nil_wf N l : chunks_wf N (chunks l) -> flat l = [] -> chunks l = [].
Proof.
  unfold flat, chunks_wf. destruct l as [[|c cs] n]; simpl; [reflexivity|].
  intros Hwf Hf. inversion Hwf as [|? ? Hc _]; subst.
  unfold chunk_ok, chunk_len in Hc.
  destruct (elements c); simpl in *; [lia | discriminate].
Qed.

End Lemmas.

(** ** Pushes *)

Section Pushes.

Context {T : Type}.
Implicit Types (l : ChunkList T) (c : Chunk T) (cs : list (Chunk T)).

Lemma chunk_push_front_not_full N c (v : T) :
  chunk_is_full N c = false ->
  chunk_push_front N c v = (true, mkChunk (v :: elements c)).
Proof.
  unfold chunk_push_front. intros ->. now rewrite rotate_right1_snoc.
Qed.

Lemma chunk_push_back_not_full N c (v : T) :
  chunk_is_full N c = false ->
  chunk_push_back N c v = (true, mkChunk (elements c ++ [v])).
Proof. unfold chunk_push_back. now intros ->. Qed.

Lemma chunk_new_not_full N : 1 <= N -> chunk_is_full (T:=T) N chunk_new = false.
Proof. intros HN. unfold chunk_is_full, chunk_len. simpl. destruct N; [lia | reflexivity]. Qed.

Lemma not_full_lt N c : chunk_ok N c -> chunk_is_full N c = false -> chunk_len c < N.
Proof. unfold chunk_ok, chunk_is_full. intros Hc Hf. apply Nat.eqb_neq in Hf. lia. Qed.

Lemma singleton_ok N (v : T) : 1 <= N -> chunk_ok N (mkChunk [v]).
Proof. unfold chunk_ok, chunk_len. simpl. lia. Qed.

Lemma push_front_spec N l (v : T) :
  1 <= N -> chunks_wf N (chunks l) ->
  chunks_wf N (chunks (push_front N l v)) /\
  flat (push_front N l v) = v :: flat l /\
  elements_count (push_front N l v) = S (elements_count l).
Proof.
  intros HN Hwf. destruct l as [cs n]. unfold push_front, flat, chunks_wf in *.
  simpl in *. destruct cs as [|c cs].
  - rewrite chunk_push_front_not_full by (now apply chunk_new_not_full).
    simpl. repeat split; auto using singleton_ok.
  - inversion Hwf as [|? ? Hc Hcs]; subst.
    destruct (chunk_is_full N c) eqn:Hfull.
    + rewrite chunk_push_front_not_full by (now apply chunk_new_not_full).
      simpl. repeat split; auto using singleton_ok.
    + rewrite chunk_push_front_not_full by assumption.
      pose proof (not_full_lt N c Hc Hfull).
      simpl. repeat split; auto.
      constructor; auto. unfold chunk_ok, chunk_len in *. simpl. lia.
Qed.

Lemma push_back_spec N l (v : T) :
  1 <= N -> chunks_wf N (chunks l) ->
  chunks_wf N (chunks (push_back N l v)) /\
  flat (push_back N l v) = flat l ++ [v] /\
  elements_count (push_back N l v) = S (elements_count l).
Proof.
  intros HN Hwf. destruct l as [cs n]. unfold push_back, flat in *.
  simpl in *. destruct (rev cs) as [|b rf] eqn:Hr.
  - apply rev_nil_eq in Hr. subst cs. simpl.
    rewrite chunk_new_not_full by assumption.
    rewrite chunk_push_back_not_full by (now apply chunk_new_not_full).
    simpl. repeat split; auto.
    unfold chunks_wf. constructor; [|constructor]. now apply singleton_ok.
  - rewrite Hr. apply rev_cons_eq in Hr. subst cs.
    apply chunks_wf_app in Hwf as [Hrf Hb].
    inversion Hb as [|? ? Hbok _]; subst.
    destruct (chunk_is_full N b) eqn:Hfull.
    + rewrite chunk_push_back_not_full by (now apply chunk_new_not_full).
      simpl. repeat split.
      * apply chunks_wf_app. split; [apply chunks_wf_app; auto|].
        constructor; [now apply singleton_ok | constructor].
      * rewrite !map_app, !concat_app. simpl. now rewrite app_nil_r.
    + rewrite chunk_push_back_not_full by assumption.
      pose proof (not_full_lt N b Hbok Hfull).
      simpl. repeat split.
      * apply chunks_wf_app. split; auto. constructor; [|constructor].
        unfold chunk_ok, chunk_len in *. simpl. rewrite length_app. simpl. lia.
      * rewrite !map_app, !concat_app. simpl. rewrite !app_nil_r.
        now rewrite app_assoc.
Qed.

End Pushes.

(** ** Pops and [remove] *)

Section Pops.

Context {T : Type}.
Implicit Types (l : ChunkList T) (c : Chunk T) (cs : list (Chunk T)).

Lemma pop_front_spec N l (x : T) xs :
  1 <= N -> chunks_wf N (chunks l) -> flat l = x :: xs ->
  length (flat l) <= elements_count l ->
  exists l', pop_front N l = Ret (Some x, l') /\
    chunks_wf N (chunks l') /\ flat l' = xs /\
    elements_count l' = pred (elements_count l).
Proof.
  intros HN Hwf Hf Hcnt. destruct l as [[|c cs] n]; unfold flat in *; simpl in *;
    [discriminate|].
  inversion Hwf as [|? ? Hc Hcs]; subst.
  destruct c as [[|y ys]]; unfold chunk_ok, chunk_len in Hc; simpl in Hc; [lia|].
  simpl in Hf. injection Hf as -> Hxs.
  unfold pop_front, remove. simpl.
  unfold chunk_remove. simpl.
  destruct (N <=? 0) eqn:HN0; [apply Nat.leb_le in HN0; lia|].
  unfold remove_at, chunk_is_empty, chunk_len. simpl.
  destruct (n =? 0) eqn:Hn; [apply Nat.eqb_eq in Hn; subst n; simpl in Hcnt; lia|].
  destruct (length ys =? 0) eqn:Hys.
  - apply Nat.eqb_eq, length_zero_iff_nil in Hys. subst ys.
    eexists. split; [reflexivity|]. simpl. auto.
  - eexists. split; [reflexivity|]. simpl. repeat split; auto.
    constructor; auto. unfold chunk_ok, chunk_len. simpl.
    apply Nat.eqb_neq in Hys. lia.
Qed.

Lemma pop_front_nil N l :
  chunks_wf N (chunks l) -> flat l = [] -> pop_front N l = Ret (None, l).
Proof.
  intros Hwf Hf. pose proof (flat_nil_wf N l Hwf Hf) as Hcs.
  unfold pop_front, remove. rewrite Hcs. reflexivity.
Qed.

Lemma pop_back_spec N l (x : T) xs :
  chunks_wf N (chunks l) -> flat l = xs ++ [x] ->
  length (flat l) <= elements_count l ->
  exists l', pop_back l = Ret (Some x, l') /\
    chunks_wf N (chunks l') /\ flat l' = xs /\
    elements_count l' = pred (elements_count l).
Proof.
  intros Hwf Hf Hcnt. rewrite Hf in Hcnt.
  destruct l as [cs n]. unfold pop_back, flat in *.
  simpl in *. destruct (rev cs) as [|b rf] eqn:Hr.
  - apply rev_nil_eq in Hr. subst cs. simpl in Hf.
    destruct xs; discriminate.
  - apply rev_cons_eq in Hr. subst cs.
    apply chunks_wf_app in Hwf as [Hrf Hb].
    inversion Hb as [|? ? Hbok _]; subst.
    destruct b as [es]. unfold chunk_pop_back. simpl.
    destruct (rev es) as [|y r] eqn:Hes.
    + apply rev_nil_eq in Hes. subst es.
      unfold chunk_ok, chunk_len in Hbok. simpl in Hbok. lia.
    + apply rev_cons_eq in Hes. subst es.
      rewrite map_app, concat_app in Hf. simpl in Hf.
      rewrite app_nil_r, app_assoc in Hf.
      apply app_inj_tail in Hf as [Hxs ->].
      destruct (n =? 0) eqn:Hn.
      { apply Nat.eqb_eq in Hn. subst n. simpl in Hcnt.
        rewrite length_app in Hcnt. simpl in Hcnt. lia. }
      unfold chunk_is_empty, chunk_len. simpl.
      destruct (length (rev r) =? 0) eqn:Hz.
      * apply Nat.eqb_eq, length_zero_iff_nil in Hz.
        eexists. split; [reflexivity|]. simpl. repeat split; auto.
        rewrite <- Hxs, Hz, app_nil_r. reflexivity.
      * eexists. split; [reflexivity|]. simpl. repeat split.
        -- apply chunks_wf_app. split; auto. constructor; [|constructor].
           unfold chunk_ok, chunk_len in *. simpl in *.
           rewrite length_app in Hbok. apply Nat.eqb_neq in Hz. simpl in Hbok. lia.
        -- rewrite map_app, concat_app. simpl. now rewrite app_nil_r.
Qed.

Lemma pop_back_nil l : chunks l = [] -> pop_back l = Ret (None, l).
Proof. intros Hcs. unfold pop_back. now rewrite Hcs. Qed.

(** In the scan of [remove], [count] stays below a positive target. *)
Lemma remove_scan_count_lt (i : nat) cs :
  forall ci cnt, cnt < i -> snd (remove_scan i cs ci cnt) < i.
Proof.
  induction cs as [|c cs IH]; intros ci cnt Hlt; simpl; [assumption|].
  destruct (i <=? cnt + chunk_len c) eqn:Hle; simpl; [assumption|].
  apply IH. apply Nat.leb_gt in Hle. lia.
Qed.

(** [remove] at a positive index never succeeds with a value: it either
    finds no chunk and leaves the deque alone, or [count - i] underflows. *)
Lemma remove_pos N l (i : nat) :
  0 < i -> remove N l i = Ret (None, l) \/ remove N l i = Panic.
Proof.
  intros Hi. unfold remove.
  pose proof (remove_scan_count_lt i (chunks l) 0 0 Hi) as Hlt.
  destruct (remove_scan i (chunks l) 0 0) as [ci cnt]. simpl in Hlt.
  destruct (nth_error (chunks l) ci); [|now left].
  right. apply Nat.ltb_lt in Hlt. now rewrite Hlt.
Qed.

End Pops.

(** ** One operation at a time *)

Section Steps.

Context {T : Type}.
Implicit Types (l : ChunkList T) (c : Chunk T) (cs : list (Chunk T)).

Lemma remove0_cons N (y : T) ys cs n :
  1 <= N ->
  remove N (mkChunkList (mkChunk (y :: ys) :: cs) n) 0 =
  if n =? 0 then Panic
  else Ret (Some y, mkChunkList (match ys with [] => cs | _ => mkChunk ys :: cs end)
                                (pred n)).
Proof.
  intros HN. unfold remove, chunk_remove. simpl.
  destruct (N <=? 0) eqn:HN0; [apply Nat.leb_le in HN0; lia|].
  unfold remove_at, chunk_is_empty, chunk_len. simpl.
  destruct ys; reflexivity.
Qed.

Lemma pop_back_snoc rf (y : T) ys n :
  pop_back (mkChunkList (rf ++ [mkChunk (ys ++ [y])]) n) =
  if n =? 0 then Panic
  else Ret (Some y, mkChunkList (match ys with [] => rf | _ => rf ++ [mkChunk ys] end)
                                (pred n)).
Proof.
  unfold pop_back, chunk_pop_back. simpl.
  rewrite rev_app_distr. simpl. rewrite rev_app_distr. simpl.
  rewrite !rev_involutive.
  unfold chunk_is_empty, chunk_len. simpl.
  destruct ys; reflexivity.
Qed.

Lemma chunk_ok_tail N (y : T) ys : chunk_ok N (mkChunk (y :: ys)) -> ys <> [] ->
  chunk_ok N (mkChunk ys).
Proof.
  unfold chunk_ok, chunk_len. simpl. destruct ys; [congruence|]. simpl. lia.
Qed.

Lemma chunk_ok_init N (y : T) ys : chunk_ok N (mkChunk (ys ++ [y])) -> ys <> [] ->
  chunk_ok N (mkChunk ys).
Proof.
  unfold chunk_ok, chunk_len. simpl. rewrite length_app. simpl.
  destruct ys; [congruence|]. simpl. lia.
Qed.

(** Shape of a non-empty chunk. *)
Lemma chunk_ok_cons N c : chunk_ok N c -> exists y ys, c = mkChunk (y :: ys).
Proof.
  destruct c as [[|y ys]]; unfold chunk_ok, chunk_len; simpl; [lia|eauto].
Qed.

Lemma chunk_ok_snoc N c : chunk_ok N c -> exists y ys, c = mkChunk (ys ++ [y]).
Proof.
  destruct c as [es]. unfold chunk_ok, chunk_len. simpl. intros H.
  destruct (rev es) as [|y r] eqn:Hes.
  - apply rev_nil_eq in Hes. subst. simpl in H. lia.
  - apply rev_cons_eq in Hes. subst. eauto.
Qed.

Lemma pop_back_wf N l o l' :
  chunks_wf N (chunks l) -> pop_back l = Ret (o, l') -> chunks_wf N (chunks l').
Proof.
  intros Hwf Hp. destruct l as [cs n]. simpl in *.
  destruct (rev cs) as [|b rf] eqn:Hr.
  - apply rev_nil_eq in Hr. subst cs. unfold pop_back in Hp. simpl in Hp.
    injection Hp as _ <-. assumption.
  - apply rev_cons_eq in Hr. subst cs.
    apply chunks_wf_app in Hwf as [Hrf Hb]. inversion Hb as [|? ? Hbok _]; subst.
    destruct (chunk_ok_snoc N b Hbok) as (y & ys & ->).
    rewrite pop_back_snoc in Hp. destruct (n =? 0); [discriminate|].
    injection Hp as _ <-. simpl. destruct ys as [|z zs]; [assumption|].
    apply chunks_wf_app. split; [assumption|]. constructor; [|constructor].
    apply (chunk_ok_init N y); [assumption | discriminate].
Qed.

Lemma remove_wf N l i o l' :
  1 <= N -> chunks_wf N (chunks l) -> remove N l i = Ret (o, l') ->
  chunks_wf N (chunks l').
Proof.
  intros HN Hwf Hr. destruct i as [|i].
  - destruct l as [[|c cs] n].
    + unfold remove in Hr. simpl in Hr. injection Hr as _ <-. assumption.
    + simpl in Hwf. inversion Hwf as [|? ? Hc Hcs]; subst.
      destruct (chunk_ok_cons N c Hc) as (y & ys & ->).
      rewrite remove0_cons in Hr by assumption.
      destruct (n =? 0); [discriminate|].
      injection Hr as _ <-. simpl. destruct ys as [|z zs]; [assumption|].
      constructor; [|assumption].
      apply (chunk_ok_tail N y); [assumption | discriminate].
  - destruct (remove_pos N l (S i)) as [H|H]; [lia| |]; rewrite H in Hr;
      [injection Hr as _ <-; assumption | discriminate].
Qed.

Lemma apply_op_wf N op l l' :
  1 <= N -> chunks_wf N (chunks l) -> apply_op N op l = Ret l' ->
  chunks_wf N (chunks l').
Proof.
  intros HN Hwf Hop. destruct op as [v|v| | |i|]; simpl in Hop.
  - injection Hop as <-. now apply push_front_spec.
  - injection Hop as <-. now apply push_back_spec.
  - destruct (pop_front N l) as [[o l1]|] eqn:Hp; [|discriminate].
    injection Hop as <-. simpl. exact (remove_wf N l 0 o l1 HN Hwf Hp).
  - destruct (pop_back l) as [[o l1]|] eqn:Hp; [|discriminate].
    injection Hop as <-. simpl. exact (pop_back_wf N l o l1 Hwf Hp).
  - destruct (remove N l i) as [[o l1]|] eqn:Hp; [|discriminate].
    injection Hop as <-. simpl. exact (remove_wf N l i o l1 HN Hwf Hp).
  - injection Hop as <-. constructor.
Qed.

End Steps.

(** ** The cached element count *)

Section Counts.

Context {T : Type}.
Implicit Types (l : ChunkList T) (c : Chunk T) (cs : list (Chunk T)).

(** Every operation but [clear] moves [elements_count] and the total
    length of the chunks together: their difference [k] is kept. *)
Lemma apply_op_count_gap N op l l' k :
  1 <= N -> chunks_wf N (chunks l) ->
  length (flat l) + k = elements_count l -> op <> OpClear ->
  apply_op N op l = Ret l' ->
  length (flat l') + k = elements_count l'.
Proof.
  intros HN Hwf Hk Hop Happ.
  assert (Hfront : forall o l1, remove N l 0 = Ret (o, l1) ->
                   length (flat l1) + k = elements_count l1).
  { intros o l1 Hr. destruct (flat l) as [|x xs] eqn:Hf.
    - pose proof (pop_front_nil N l Hwf Hf) as Hn. unfold pop_front in Hn.
      rewrite Hn in Hr. injection Hr as _ <-. now rewrite Hf.
    - destruct (pop_front_spec N l x xs HN Hwf Hf) as (l2 & Hp & _ & Hf2 & Hc2);
        [rewrite Hf in *; lia|].
      unfold pop_front in Hp. rewrite Hp in Hr. injection Hr as _ <-.
      rewrite Hf2, Hc2. simpl in Hk. lia. }
  destruct op as [v|v| | |i|]; simpl in Happ.
  - injection Happ as <-. destruct (push_front_spec N l v HN Hwf) as (_ & -> & ->).
    simpl. lia.
  - injection Happ as <-. destruct (push_back_spec N l v HN Hwf) as (_ & -> & ->).
    rewrite length_app. simpl. lia.
  - unfold pop_front in Happ.
    destruct (remove N l 0) as [[o l1]|] eqn:Hp; [|discriminate].
    injection Happ as <-. exact (Hfront o l1 eq_refl).
  - destruct (pop_back l) as [[o l1]|] eqn:Hp; [|discriminate].
    injection Happ as <-. simpl.
    destruct (flat l) as [|x0 xs0] eqn:Hf.
    + rewrite (pop_back_nil l (flat_nil_wf N l Hwf Hf)) in Hp.
      injection Hp as _ <-. now rewrite Hf.
    + assert (Hne : x0 :: xs0 <> []) by discriminate.
      destruct (exists_last Hne) as (xs & x & Hxs).
      rewrite Hxs in Hf.
      destruct (pop_back_spec N l x xs Hwf Hf) as (l2 & Hp2 & _ & Hf2 & Hc2);
        [rewrite Hf, <- Hk, Hxs; lia|].
      rewrite Hp2 in Hp. injection Hp as _ <-.
      rewrite Hf2, Hc2, <- Hk, Hxs, length_app. simpl. lia.
  - destruct (remove N l i) as [[o l1]|] eqn:Hp; [|discriminate].
    injection Happ as <-. simpl. destruct i as [|i].
    + exact (Hfront o l1 Hp).
    + destruct (remove_pos N l (S i)) as [H|H]; [lia| |]; rewrite H in Hp;
        [injection Hp as _ <-; assumption | discriminate].
  - congruence.
Qed.

Lemma flat_clear l : flat (clear l) = [].
Proof. reflexivity. Qed.

Lemma apply_op_count_le N op l l' :
  1 <= N -> chunks_wf N (chunks l) ->
  length (flat l) <= elements_count l ->
  apply_op N op l = Ret l' ->
  length (flat l') <= elements_count l'.
Proof.
  intros HN Hwf Hle Happ. destruct op eqn:Hop.
  1-5: rewrite <- Hop in Happ;
       pose proof (apply_op_count_gap N op l l' (elements_count l - length (flat l))
                     HN Hwf ltac:(lia) ltac:(subst op; discriminate) Happ); lia.
  simpl in Happ. injection Happ as <-. simpl. lia.
Qed.

(** The invariant of every deque reachable from [new]. *)
Lemma reachable_inv N l :
  reachable N l ->
  1 <= N /\ chunks_wf N (chunks l) /\ length (flat l) <= elements_count l.
Proof.
  induction 1 as [l Hnew | l op l' _ (HN & Hwf & Hle) Happ].
  - unfold new in Hnew. destruct (N <? 1) eqn:HN; [discriminate|].
    apply Nat.ltb_ge in HN. injection Hnew as <-.
    repeat split; [assumption | constructor | simpl; lia].
  - repeat split; [assumption | |].
    + exact (apply_op_wf N op l l' HN Hwf Happ).
    + exact (apply_op_count_le N op l l' HN Hwf Hle Happ).
Qed.

End Counts.

(** ** The borrowing iterator on well-formed deques *)

Section Iteration.

Context {T : Type}.
Implicit Types (l : ChunkList T) (c : Chunk T) (cs : list (Chunk T)).

(** Elements still to be produced from position [(chunk_i, element_i)],
    given [rest], the chunks from [chunk_i] on. *)
Definition remaining (rest : list (Chunk T)) (element_i : nat) : list T :=
  skipn element_i (concat (map elements rest)).

(** A position at which [Iter] can stand between two [next()] calls. *)
Definition iter_pos_ok (rest : list (Chunk T)) (element_i : nat) : Prop :=
  match rest with
  | [] => True
  | c :: _ => element_i < chunk_len c
  end.

Lemma skipn_cons_next {X : Type} (n : nat) (l : list X) x r :
  skipn n l = x :: r -> skipn (S n) l = r.
Proof.
  revert l. induction n as [|n IH]; intros [|y l] H; simpl in *; try discriminate.
  - now injection H as _ ->.
  - now apply IH.
Qed.

Lemma Forall_skipn' {X : Type} (P : X -> Prop) (n : nat) (l : list X) :
  Forall P l -> Forall P (skipn n l).
Proof.
  revert l. induction n as [|n IH]; intros [|y l] H; simpl; auto.
  inversion H; auto.
Qed.

Lemma skipn_nth_cons {X : Type} (n : nat) (l : list X) x :
  nth_error l n = Some x -> skipn n l = x :: skipn (S n) l.
Proof.
  revert l. induction n as [|n IH]; intros [|y l] H; simpl in *; try discriminate.
  - now injection H as ->.
  - now apply IH.
Qed.

Lemma iter_pos_ok_start N cs : chunks_wf N cs -> iter_pos_ok cs 0.
Proof.
  intros Hwf. destruct cs as [|c cs]; simpl; [exact I|].
  inversion Hwf as [|? ? Hc _]. unfold chunk_ok in Hc. lia.
Qed.

(** One call of [next()] from a good position produces the next remaining
    element (or [None] at the end) and moves to a good position. *)
Lemma iter_next_step N cs n ci ei :
  chunks_wf N cs -> iter_pos_ok (skipn ci cs) ei ->
  exists ci' ei',
    iter_next N (mkChunkList cs n) ci ei =
      Ret (hd_error (remaining (skipn ci cs) ei), ci', ei') /\
    iter_pos_ok (skipn ci' cs) ei' /\
    remaining (skipn ci' cs) ei' = tl (remaining (skipn ci cs) ei).
Proof.
  intros Hwf Hpos. unfold iter_next. simpl.
  pose proof (Forall_skipn' (chunk_ok N) ci cs Hwf) as Hwf'.
  destruct (skipn ci cs) as [|c rest] eqn:Hsk.
  - exists ci, ei. rewrite Hsk. unfold remaining. simpl.
    rewrite skipn_nil. auto.
  - simpl in Hpos. inversion Hwf' as [|? ? Hc Hrest]; subst.
    pose proof (skipn_cons_next ci cs c rest Hsk) as Hsk'.
    unfold chunk_ok, chunk_len in Hc, Hpos.
    destruct (nth_error (elements c) ei) as [x|] eqn:Hx;
      [|apply nth_error_None in Hx; lia].
    assert (Hrem : remaining (c :: rest) ei =
                   x :: skipn (S ei) (elements c) ++ concat (map elements rest)).
    { unfold remaining. simpl. rewrite skipn_app.
      replace (ei - length (elements c)) with 0 by lia. simpl.
      now rewrite (skipn_nth_cons ei (elements c) x Hx). }
    simpl. unfold chunk_get. destruct (N <=? ei) eqn:HN; [apply Nat.leb_le in HN; lia|].
    simpl. rewrite Hx. simpl. unfold chunk_len.
    destruct (length (elements c) <=? S ei) eqn:Hend.
    + apply Nat.leb_le in Hend. exists (S ci), 0.
      rewrite skipn_all2 in Hrem by lia.
      rewrite Hsk', Hrem. simpl. repeat split.
      apply (iter_pos_ok_start N). assumption.
    + apply Nat.leb_gt in Hend. exists ci, (S ei).
      assert (Hrem2 : remaining (c :: rest) (S ei) =
                      skipn (S ei) (elements c) ++ concat (map elements rest)).
      { unfold remaining. cbn [map concat]. rewrite skipn_app.
        replace (S ei - length (elements c)) with 0 by lia. reflexivity. }
      rewrite Hsk, Hrem, Hrem2. cbn [hd_error tl].
      split; [reflexivity|]. split; [simpl; unfold chunk_len; lia | reflexivity].
Qed.

Lemma iter_take_remaining N cs n :
  chunks_wf N cs ->
  forall m ci ei, iter_pos_ok (skipn ci cs) ei ->
  length (remaining (skipn ci cs) ei) = m ->
  iter_take N (mkChunkList cs n) (S m) ci ei =
    Ret (map Some (remaining (skipn ci cs) ei) ++ [None]).
Proof.
  intros Hwf m. induction m as [|m IH]; intros ci ei Hpos Hlen.
  - apply length_zero_iff_nil in Hlen.
    destruct (iter_next_step N cs n ci ei Hwf Hpos) as (ci' & ei' & Hnx & _ & _).
    simpl. rewrite Hnx, Hlen. reflexivity.
  - destruct (iter_next_step N cs n ci ei Hwf Hpos) as (ci' & ei' & Hnx & Hpos' & Hrem').
    destruct (remaining (skipn ci cs) ei) as [|x xs] eqn:Hrem; [discriminate|].
    simpl in Hlen, Hrem'. change (iter_take N (mkChunkList cs n) (S (S m)) ci ei)
      with (r <- iter_next N (mkChunkList cs n) ci ei ;;
            let '(value, ci0, ei0) := r in
            vs <- iter_take N (mkChunkList cs n) (S m) ci0 ei0 ;; Ret (value :: vs)).
    rewrite Hnx. cbn [res_bind].
    rewrite (IH ci' ei' Hpos') by (rewrite Hrem'; lia).
    rewrite Hrem'. reflexivity.
Qed.

Lemma iter_nth_remaining N cs n :
  chunks_wf N cs ->
  forall i ci ei, iter_pos_ok (skipn ci cs) ei ->
  iter_nth N (mkChunkList cs n) i ci ei = Ret (nth_error (remaining (skipn ci cs) ei) i).
Proof.
  intros Hwf i. induction i as [|i IH]; intros ci ei Hpos;
    destruct (iter_next_step N cs n ci ei Hwf Hpos) as (ci' & ei' & Hnx & Hpos' & Hrem');
    simpl; rewrite Hnx; simpl.
  - destruct (remaining (skipn ci cs) ei); reflexivity.
  - destruct (remaining (skipn ci cs) ei) as [|x xs]; simpl; [reflexivity|].
    rewrite IH by assumption. simpl in Hrem'. now rewrite Hrem'.
Qed.

End Iteration.

(** ** Whole sequences of pushes and pops *)

Section Sequences.

Context {T : Type}.
Implicit Types (l : ChunkList T) (vs : list T).

Lemma push_front_all_spec N vs l :
  1 <= N -> chunks_wf N (chunks l) -> length (flat l) <= elements_count l ->
  chunks_wf N (chunks (push_front_all N vs l)) /\
  flat (push_front_all N vs l) = rev vs ++ flat l /\
  length (flat (push_front_all N vs l)) <= elements_count (push_front_all N vs l).
Proof.
  revert l. induction vs as [|v vs IH]; intros l HN Hwf Hle; simpl; [auto|].
  destruct (push_front_spec N l v HN Hwf) as (Hwf1 & Hf1 & Hc1).
  destruct (IH (push_front N l v) HN Hwf1) as (Hwf2 & Hf2 & Hc2);
    [rewrite Hf1, Hc1; simpl; lia|].
  repeat split; auto. rewrite Hf2, Hf1, <- app_assoc. reflexivity.
Qed.

Lemma push_back_all_spec N vs l :
  1 <= N -> chunks_wf N (chunks l) -> length (flat l) <= elements_count l ->
  chunks_wf N (chunks (push_back_all N vs l)) /\
  flat (push_back_all N vs l) = flat l ++ vs /\
  length (flat (push_back_all N vs l)) <= elements_count (push_back_all N vs l).
Proof.
  revert l. induction vs as [|v vs IH]; intros l HN Hwf Hle; simpl.
  - rewrite app_nil_r. auto.
  - destruct (push_back_spec N l v HN Hwf) as (Hwf1 & Hf1 & Hc1).
    destruct (IH (push_back N l v) HN Hwf1) as (Hwf2 & Hf2 & Hc2);
      [rewrite Hf1, Hc1, length_app; simpl; lia|].
    repeat split; auto. rewrite Hf2, Hf1, <- app_assoc. reflexivity.
Qed.

Lemma drain_front_spec N :
  1 <= N -> forall m l, length (flat l) = m ->
  chunks_wf N (chunks l) -> length (flat l) <= elements_count l ->
  drain_front N (S m) l = Ret (map Some (flat l) ++ [None]).
Proof.
  intros HN m. induction m as [|m IH]; intros l Hm Hwf Hle.
  - apply length_zero_iff_nil in Hm.
    simpl. rewrite (pop_front_nil N l Hwf Hm), Hm. reflexivity.
  - destruct (flat l) as [|x xs] eqn:Hf; [discriminate|].
    destruct (pop_front_spec N l x xs HN Hwf Hf) as (l' & Hp & Hwf' & Hf' & Hc');
      [rewrite Hf; exact Hle|].
    simpl in Hm, Hle.
    change (drain_front N (S (S m)) l) with
      (r <- pop_front N l ;; let '(v, l1) := r in
       vs <- drain_front N (S m) l1 ;; Ret (v :: vs)).
    rewrite Hp. cbn [res_bind].
    rewrite (IH l') by (rewrite ?Hf', ?Hc'; auto; lia).
    rewrite Hf'. reflexivity.
Qed.

Lemma drain_back_spec N :
  forall m l, length (flat l) = m ->
  chunks_wf N (chunks l) -> length (flat l) <= elements_count l ->
  drain_back N (S m) l = Ret (map Some (rev (flat l)) ++ [None]).
Proof.
  intros m. induction m as [|m IH]; intros l Hm Hwf Hle.
  - apply length_zero_iff_nil in Hm.
    simpl. rewrite (pop_back_nil l (flat_nil_wf N l Hwf Hm)), Hm. reflexivity.
  - destruct (flat l) as [|x0 xs0] eqn:Hf; [discriminate|].
    assert (Hne : x0 :: xs0 <> []) by discriminate.
    destruct (exists_last Hne) as (xs & x & Hxs). rewrite Hxs in Hf, Hm, Hle.
    destruct (pop_back_spec N l x xs Hwf Hf) as (l' & Hp & Hwf' & Hf' & Hc');
      [rewrite Hf; exact Hle|].
    rewrite length_app in Hm, Hle. simpl in Hm, Hle.
    change (drain_back N (S (S m)) l) with
      (r <- pop_back l ;; let '(v, l1) := r in
       vs <- drain_back N (S m) l1 ;; Ret (v :: vs)).
    rewrite Hp. cbn [res_bind].
    rewrite (IH l') by (rewrite ?Hf', ?Hc'; auto; lia).
    rewrite Hf', Hxs, rev_app_distr. reflexivity.
Qed.

End Sequences.

(** ** The [Chunk] contract *)

Section ChunkContract.

Context {T : Type}.
Implicit Types (c : Chunk T).

Lemma chunk_get_panic_iff N c i : chunk_get N c i = Panic <-> N <= i.
Proof.
  unfold chunk_get. destruct (N <=? i) eqn:H.
  - apply Nat.leb_le in H. split; auto.
  - apply Nat.leb_gt in H. split; [discriminate | lia].
Qed.

Lemma chunk_remove_panic_iff N c i : chunk_remove N c i = Panic <-> N <= i.
Proof.
  unfold chunk_remove. destruct (N <=? i) eqn:H.
  - apply Nat.leb_le in H. split; auto.
  - apply Nat.leb_gt in H. split; [|lia].
    destruct (length (elements c) <=? i) eqn:Hl; [discriminate|].
    apply Nat.leb_gt in Hl.
    destruct (nth_error (elements c) i) eqn:Hx; [discriminate|].
    apply nth_error_None in Hx. lia.
Qed.

Lemma chunk_remove_absent N c i :
  i < N -> chunk_len c <= i -> chunk_remove N c i = Ret (None, c).
Proof.
  unfold chunk_remove, chunk_len. intros HN Hl.
  destruct (N <=? i) eqn:H; [apply Nat.leb_le in H; lia|].
  apply Nat.leb_le in Hl. now rewrite Hl.
Qed.

Lemma new_zero_panics : new (T:=T) 0 = Panic.
Proof. reflexivity. Qed.

End ChunkContract.

Lemma new_two : new (T:=nat) 2 = Ret (mkChunkList [] 0).
Proof. reflexivity. Qed.

(** * The claims *)

(** ** [remove] at a logical index *)

(** C1 (code_bug). [remove(i)] does not remove the [i]-th element for
    [i > 0]: with [N = 2] and the deque [1, 2] (one chunk), index 1 is in
    range and holds [2], yet the scan stops at chunk 0 with [count = 0]
    and [count - i] underflows, so [remove(1)] panics. *)
Theorem remove_index_one_panics :
  let l := push_back_all 2 [1; 2] (mkChunkList [] 0) in
  new (T:=nat) 2 = Ret (mkChunkList [] 0) /\
  elements_count l = 2 /\ nth_error (flat l) 1 = Some 2 /\
  remove 2 l 1 = Panic.
Proof. repeat split; reflexivity. Qed.

(** ** [clear] *)

(** C2 (code_bug). After [clear()], [chunks_count() == 0] and [get(0)]
    is [None], but [elements_count()] keeps its old value: after
    [push_front] of 1, 2, 3 with [N = 2], it is still 3. *)
Theorem clear_keeps_elements_count :
  let l := clear (push_front_all 2 [1; 2; 3] (mkChunkList [] 0)) in
  elements_count l = 3 /\ chunks_count l = 0 /\ get 2 l 0 = Ret None.
Proof. repeat split; reflexivity. Qed.

(** C3 (code_bug). The cached count equals the sum of the chunk lengths
    before [clear()] and not after it: 3 against 0 in the deque of C2.
    (Every other operation keeps the difference, see
    [apply_op_count_gap].) *)
Theorem clear_breaks_count_sum :
  let l := push_front_all 2 [1; 2; 3] (mkChunkList [] 0) in
  elements_count l = chunks_total l /\
  chunks_total (clear l) = 0 /\ elements_count (clear l) = 3.
Proof. repeat split; reflexivity. Qed.

(** ** Non-empty chunks *)

(** C4. Every deque obtained from [new()] by completed public operations
    holds only chunks of length between 1 and [N]. *)
Theorem reachable_chunks_nonempty (N : nat) (l : ChunkList nat) :
  reachable N l -> Forall (fun c => 1 <= chunk_len c <= N) (chunks l).
Proof.
  intros Hr. apply reachable_inv in Hr as (_ & Hwf & _). exact Hwf.
Qed.

(** ** Absence reported as [None] *)

(** C5 (code_bug). [get] past the end and pops on an empty deque give
    [None], but [remove(elements_count())] on a non-empty deque panics:
    with [N = 2] and the deque [3, 2, 1], [remove(3)] stops its scan at
    chunk 1 with [count = 1] and [1 - 3] underflows. *)
Theorem remove_at_count_panics :
  let l := push_front_all 2 [1; 2; 3] (mkChunkList [] 0) in
  elements_count l = 3 /\ get 2 l 3 = Ret None /\
  pop_back (mkChunkList (T:=nat) [] 0) = Ret (None, mkChunkList [] 0) /\
  pop_front 2 (mkChunkList (T:=nat) [] 0) = Ret (None, mkChunkList [] 0) /\
  remove 2 l 3 = Panic.
Proof. repeat split; reflexivity. Qed.

(** C6. On a deque whose chunks hold 1 to [N] elements, a [remove(i)]
    that returns [None] leaves the deque (chunks and count) unchanged. *)
Theorem remove_none_unchanged (N : nat) (l l' : ChunkList nat) (i : nat) :
  chunks_wf N (chunks l) -> remove N l i = Ret (None, l') -> l' = l.
Proof.
  intros Hwf Hr. destruct i as [|i].
  - destruct l as [[|c cs] n].
    + unfold remove in Hr. simpl in Hr. now injection Hr as <-.
    + simpl in Hwf. inversion Hwf as [|? ? Hc _]; subst.
      assert (HN : 1 <= N) by (unfold chunk_ok in Hc; lia).
      destruct (chunk_ok_cons N c Hc) as (y & ys & ->).
      rewrite remove0_cons in Hr by assumption.
      destruct (n =? 0); discriminate.
  - destruct (remove_pos N l (S i)) as [H|H]; [lia| |]; rewrite H in Hr;
      [now injection Hr as <- | discriminate].
Qed.

(** ** Fatal faults *)

(** C7 (code_bug). Besides [Chunk::get]/[Chunk::remove] at [i >= N]
    ([chunk_get_panic_iff], [chunk_remove_panic_iff]) and [new()] with
    [N = 0] ([new_zero_panics]), [ChunkList::remove] panics at an index in
    range: with [N = 2] and the deque [3, 2, 1], [remove(1)]. *)
Theorem remove_in_range_fatal :
  let l := push_front_all 2 [1; 2; 3] (mkChunkList [] 0) in
  1 < elements_count l /\ 1 <= 2 /\ remove 2 l 1 = Panic.
Proof. split; [|split]; [vm_compute; lia | lia | reflexivity]. Qed.

(** ** Round trips *)

(** C8. From [new()] with [N >= 1], pushing [v1..vn] at the front and then
    popping [n + 1] times at the front yields [vn..v1] then [None]; the
    same holds at the back. *)
Theorem push_pop_roundtrip (N : nat) (vs : list nat) :
  1 <= N ->
  (l <- new N ;; drain_front N (S (length vs)) (push_front_all N vs l)) =
    Ret (map Some (rev vs) ++ [None]) /\
  (l <- new N ;; drain_back N (S (length vs)) (push_back_all N vs l)) =
    Ret (map Some (rev vs) ++ [None]).
Proof.
  intros HN. unfold new. destruct (N <? 1) eqn:H; [apply Nat.ltb_lt in H; lia|].
  cbn [res_bind].
  assert (Hwf0 : chunks_wf N (chunks (mkChunkList (T:=nat) [] 0))) by constructor.
  assert (Hle0 : length (flat (mkChunkList (T:=nat) [] 0)) <=
                 elements_count (mkChunkList (T:=nat) [] 0)) by (simpl; lia).
  split.
  - destruct (push_front_all_spec N vs _ HN Hwf0 Hle0) as (Hwf & Hf & Hle).
    assert (Hlen : length (flat (push_front_all N vs (mkChunkList [] 0))) = length vs)
      by (rewrite Hf; simpl; rewrite app_nil_r, length_rev; reflexivity).
    rewrite (drain_front_spec N HN (length vs) _ Hlen Hwf Hle).
    rewrite Hf. simpl. now rewrite app_nil_r.
  - destruct (push_back_all_spec N vs _ HN Hwf0 Hle0) as (Hwf & Hf & Hle).
    assert (Hlen : length (flat (push_back_all N vs (mkChunkList [] 0))) = length vs)
      by (rewrite Hf; reflexivity).
    rewrite (drain_back_spec N (length vs) _ Hlen Hwf Hle).
    rewrite Hf. reflexivity.
Qed.

(** ** Borrowing iteration *)

(** C9. On a deque whose chunks hold 1 to [N] elements, [iter()] yields
    the contents front to back, each once, then [None], without a panic
    (so no [Chunk::get] at [i >= N]); and [get(i)] is the [i]-th of them. *)
Theorem iter_matches_contents (N : nat) (l : ChunkList nat) :
  chunks_wf N (chunks l) ->
  iter_take N l (S (length (flat l))) 0 0 = Ret (map Some (flat l) ++ [None]) /\
  (forall i, get N l i = Ret (nth_error (flat l) i)).
Proof.
  intros Hwf. destruct l as [cs n].
  pose proof (iter_pos_ok_start N cs Hwf) as Hpos.
  split.
  - apply (iter_take_remaining N cs n Hwf (length (flat (mkChunkList cs n))) 0 0 Hpos).
    reflexivity.
  - intros i. unfold get. apply (iter_nth_remaining N cs n Hwf i 0 0 Hpos).
Qed.

(** ** [pop_back]'s [unwrap] *)

(** C10. In every deque reachable from [new()], the back chunk, if any,
    is non-empty, and [pop_back()] never panics. *)
Theorem pop_back_never_panics (N : nat) (l : ChunkList nat) :
  reachable N l ->
  match rev (chunks l) with
  | [] => True
  | back :: _ => elements back <> []
  end /\ pop_back l <> Panic.
Proof.
  intros Hr. apply reachable_inv in Hr as (HN & Hwf & Hle).
  destruct l as [cs n]. simpl in *.
  destruct (rev cs) as [|b rf] eqn:Hrev.
  - split; [exact I|]. unfold pop_back. simpl. rewrite Hrev. discriminate.
  - apply rev_cons_eq in Hrev. subst cs.
    apply chunks_wf_app in Hwf as [_ Hb]. inversion Hb as [|? ? Hbok _]; subst.
    destruct (chunk_ok_snoc N b Hbok) as (y & ys & ->).
    split; [simpl; destruct ys; discriminate|].
    rewrite pop_back_snoc.
    destruct (n =? 0) eqn:Hn; [|discriminate].
    apply Nat.eqb_eq in Hn. subst n. unfold flat in Hle. simpl in Hle.
    rewrite map_app, concat_app, length_app in Hle. simpl in Hle.
    rewrite app_nil_r, length_app in Hle. simpl in Hle. lia.
Qed.

(** * Witnesses: the claims' hypotheses are met at concrete inputs *)

Definition deque_321 : ChunkList nat :=
  push_front_all 2 [1; 2; 3] (mkChunkList [] 0).

Lemma deque_321_chunks :
  chunks deque_321 = [mkChunk [3]; mkChunk [2; 1]].
Proof. reflexivity. Qed.

Lemma deque_321_wf : chunks_wf 2 (chunks deque_321).
Proof.
  rewrite deque_321_chunks.
  repeat constructor; unfold chunk_ok, chunk_len; simpl; lia.
Qed.

Lemma reachable_chunks_nonempty_witness :
  reachable 2 (push_front 2 (push_front 2 (mkChunkList [] 0) 1) 2) /\
  Forall (fun c => 1 <= chunk_len c <= 2)
    (chunks (push_front 2 (push_front 2 (mkChunkList [] 0) 1) 2)).
Proof.
  assert (H : reachable 2 (push_front 2 (push_front 2 (mkChunkList [] 0) 1) 2)).
  { apply (reach_op 2 (push_front 2 (mkChunkList [] 0) 1) (OpPushFront 2));
      [|reflexivity].
    apply (reach_op 2 (mkChunkList [] 0) (OpPushFront 1)); [|reflexivity].
    apply reach_new. reflexivity. }
  split; [exact H | exact (reachable_chunks_nonempty 2 _ H)].
Defined.

Lemma remove_none_unchanged_witness :
  chunks_wf 2 (chunks deque_321) /\
  remove 2 deque_321 4 = Ret (None, deque_321) /\ deque_321 = deque_321.
Proof.
  split; [exact deque_321_wf|]. split; [reflexivity|].
  apply (remove_none_unchanged 2 deque_321 deque_321 4);
    [exact deque_321_wf | reflexivity].
Defined.

Lemma push_pop_roundtrip_witness :
  1 <= 2 /\
  (l <- new 2 ;; drain_front 2 4 (push_front_all 2 [1; 2; 3] l)) =
    Ret [Some 3; Some 2; Some 1; None] /\
  (l <- new 2 ;; drain_back 2 4 (push_back_all 2 [1; 2; 3] l)) =
    Ret [Some 3; Some 2; Some 1; None].
Proof.
  split; [lia|]. apply (push_pop_roundtrip 2 [1; 2; 3]). lia.
Defined.

Lemma iter_matches_contents_witness :
  chunks_wf 2 (chunks deque_321) /\
  iter_take 2 deque_321 4 0 0 = Ret [Some 3; Some 2; Some 1; None] /\
  (forall i, get 2 deque_321 i = Ret (nth_error [3; 2; 1] i)).
Proof.
  split; [exact deque_321_wf|].
  apply (iter_matches_contents 2 deque_321). exact deque_321_wf.
Defined.

Lemma pop_back_never_panics_witness :
  reachable 2 (push_back 2 (mkChunkList [] 0) 7) /\
  (match rev (chunks (push_back 2 (mkChunkList [] 0) 7)) with
   | [] => True
   | back :: _ => elements back <> []
   end /\ pop_back (push_back 2 (mkChunkList [] 0) 7) <> Panic).
Proof.
  assert (H : reachable 2 (push_back 2 (mkChunkList [] 0) 7)).
  { apply (reach_op 2 (mkChunkList [] 0) (OpPushBack 7)); [|reflexivity].
    apply reach_new. reflexivity. }
  split; [exact H | exact (pop_back_never_panics 2 _ H)].
Defined.

(** * Further properties of the code *)

(** ** [Chunk] pushes and pops *)

Section ChunkOps.

Context {T : Type}.
Implicit Types (c : Chunk T).

(** [Chunk::push_back] refuses a full chunk and leaves it unchanged;
    otherwise it appends, and a chunk of at most [N] elements stays so. *)
Theorem chunk_push_back_bounded N c (v : T) :
  chunk_len c <= N ->
  (chunk_len c = N /\ chunk_push_back N c v = (false, c)) \/
  (chunk_len c < N /\ chunk_push_back N c v = (true, mkChunk (elements c ++ [v])) /\
   chunk_len (mkChunk (elements c ++ [v])) <= N).
Proof.
  intros Hle. unfold chunk_push_back, chunk_is_full.
  destruct (chunk_len c =? N) eqn:H.
  - left. apply Nat.eqb_eq in H. auto.
  - right. apply Nat.eqb_neq in H. unfold chunk_len in *. simpl.
    rewrite length_app. simpl. repeat split; lia.
Qed.

(** [Chunk::push_front] likewise, putting the value in front. *)
Theorem chunk_push_front_bounded N c (v : T) :
  chunk_len c <= N ->
  (chunk_len c = N /\ chunk_push_front N c v = (false, c)) \/
  (chunk_len c < N /\ chunk_push_front N c v = (true, mkChunk (v :: elements c)) /\
   chunk_len (mkChunk (v :: elements c)) <= N).
Proof.
  intros Hle. destruct (chunk_is_full N c) eqn:H.
  - left. unfold chunk_push_front. rewrite H.
    unfold chunk_is_full in H. apply Nat.eqb_eq in H. auto.
  - right. rewrite chunk_push_front_not_full by assumption.
    unfold chunk_is_full in H. apply Nat.eqb_neq in H.
    unfold chunk_len in *. simpl. repeat split; lia.
Qed.

(** [Chunk::pop_back] undoes a successful [Chunk::push_back]. *)
Theorem chunk_push_back_pop_back N c (v : T) :
  chunk_is_full N c = false ->
  chunk_pop_back (snd (chunk_push_back N c v)) = (Some v, c).
Proof.
  intros H. rewrite chunk_push_back_not_full by assumption.
  unfold chunk_pop_back. simpl. rewrite rev_app_distr. simpl.
  rewrite rev_involutive. now destruct c.
Qed.

(** [Chunk::pop_front] undoes a successful [Chunk::push_front]. *)
Theorem chunk_push_front_pop_front N c (v : T) :
  1 <= N -> chunk_is_full N c = false ->
  chunk_pop_front N (snd (chunk_push_front N c v)) = Ret (Some v, c).
Proof.
  intros HN H. rewrite chunk_push_front_not_full by assumption.
  unfold chunk_pop_front, chunk_remove. simpl.
  destruct (N <=? 0) eqn:H0; [apply Nat.leb_le in H0; lia|].
  unfold remove_at. simpl. now destruct c.
Qed.

(** On an empty chunk, [pop_back] gives [None]; [pop_front], which is
    [remove(0)], gives [None] when [N >= 1] and panics when [N = 0]. *)
Theorem chunk_pops_on_empty N c :
  elements c = [] ->
  chunk_pop_back c = (None, c) /\
  chunk_pop_front N c = (if N =? 0 then Panic else Ret (None, c)).
Proof.
  intros He. unfold chunk_pop_back, chunk_pop_front, chunk_remove.
  rewrite He. simpl. split; [reflexivity|]. destruct N; reflexivity.
Qed.

End ChunkOps.

(** ** Deque pushes undone by pops *)

Section DequeUndo.

Context {T : Type}.
Implicit Types (l : ChunkList T).

(** On a deque whose chunks hold 1 to [N] elements, [pop_back] right after
    [push_back(v)] returns [v] and gives back exactly the former deque. *)
Theorem push_back_pop_back N l (v : T) :
  1 <= N -> chunks_wf N (chunks l) ->
  pop_back (push_back N l v) = Ret (Some v, l).
Proof.
  intros HN Hwf. destruct l as [cs n]. simpl in Hwf.
  unfold push_back. simpl.
  destruct (rev cs) as [|b rf] eqn:Hr.
  - apply rev_nil_eq in Hr. subst cs. simpl.
    rewrite chunk_new_not_full by assumption.
    rewrite chunk_push_back_not_full by (now apply chunk_new_not_full).
    reflexivity.
  - rewrite Hr. apply rev_cons_eq in Hr. subst cs.
    apply chunks_wf_app in Hwf as [_ Hb]. inversion Hb as [|? ? Hbok _]; subst.
    destruct (chunk_is_full N b) eqn:Hfull.
    + rewrite chunk_push_back_not_full by (now apply chunk_new_not_full).
      exact (pop_back_snoc (rev rf ++ [b]) v [] (S n)).
    + rewrite chunk_push_back_not_full by assumption. simpl.
      rewrite (pop_back_snoc (rev rf) v (elements b) (S n)).
      destruct (chunk_ok_cons N b Hbok) as (y & ys & ->). reflexivity.
Qed.

(** Likewise [pop_front] right after [push_front(v)]. *)
Theorem push_front_pop_front N l (v : T) :
  1 <= N -> chunks_wf N (chunks l) ->
  pop_front N (push_front N l v) = Ret (Some v, l).
Proof.
  intros HN Hwf. destruct l as [cs n]. simpl in Hwf.
  unfold push_front, pop_front. simpl.
  destruct cs as [|c cs].
  - rewrite chunk_push_front_not_full by (now apply chunk_new_not_full).
    simpl. rewrite remove0_cons by assumption. reflexivity.
  - inversion Hwf as [|? ? Hc _]; subst.
    destruct (chunk_is_full N c) eqn:Hfull.
    + rewrite chunk_push_front_not_full by (now apply chunk_new_not_full).
      simpl. rewrite remove0_cons by assumption. reflexivity.
    + rewrite chunk_push_front_not_full by assumption. simpl.
      rewrite remove0_cons by assumption. simpl.
      destruct (chunk_ok_cons N c Hc) as (y & ys & ->). reflexivity.
Qed.

(** Starting from a deque whose cached count equals the number of stored
    elements, every completed operation other than [clear] keeps them
    equal. *)
Theorem count_matches_contents_except_clear N op l l' :
  1 <= N -> chunks_wf N (chunks l) ->
  elements_count l = length (flat l) -> op <> OpClear ->
  apply_op N op l = Ret l' ->
  elements_count l' = length (flat l').
Proof.
  intros HN Hwf Heq Hop Happ.
  pose proof (apply_op_count_gap N op l l' 0 HN Hwf ltac:(lia) Hop Happ). lia.
Qed.

End DequeUndo.

(** ** [new_filled] *)

Section NewFilled.

Context {T : Type}.
Implicit Types (l : ChunkList T) (cs : list (Chunk T)).







(** With [N = 0], [new_filled] panics (in [new]). *)
Lemma new_filled_zero count (v : T) : new_filled 0 count v = Panic.
Proof. reflexivity. Qed.

End NewFilled.

(** ** The consuming iterator *)

Section IntoIterProps.

Context {T : Type}.
Implicit Types (l : ChunkList T).

Lemma into_iter_next_cons N l (x : T) xs :
  chunks_wf N (chunks l) -> flat l = x :: xs ->
  exists l', into_iter_next N l = Ret (Some x, l') /\
    chunks_wf N (chunks l') /\ flat l' = xs.
Proof.
  intros Hwf Hf. destruct l as [[|c cs] n]; unfold flat in *; simpl in *;
    [discriminate|].
  inversion Hwf as [|? ? Hc Hcs]; subst.
  assert (HN : 1 <= N) by (unfold chunk_ok in Hc; lia).
  destruct (chunk_ok_cons N c Hc) as (y & ys & ->).
  simpl in Hf. injection Hf as -> <-.
  unfold into_iter_next, chunk_pop_front, chunk_remove. simpl.
  destruct (N <=? 0) eqn:H0; [apply Nat.leb_le in H0; lia|].
  unfold remove_at, chunk_is_empty, chunk_len. simpl.
  destruct ys as [|z zs].
  - eexists. split; [reflexivity|]. simpl. auto.
  - eexists. split; [reflexivity|]. simpl. split; [|reflexivity].
    constructor; auto. apply (chunk_ok_tail N x); [assumption | discriminate].
Qed.

(** On a deque whose chunks hold 1 to [N] elements, [into_iter()] yields
    the contents front to back and then [None]. *)
Theorem into_iter_drains N l :
  chunks_wf N (chunks l) ->
  into_iter_take N (S (length (flat l))) l = Ret (map Some (flat l) ++ [None]).
Proof.
  remember (length (flat l)) as m eqn:Hm. revert l Hm.
  induction m as [|m IH]; intros l Hm Hwf.
  - symmetry in Hm. apply length_zero_iff_nil in Hm.
    pose proof (flat_nil_wf N l Hwf Hm) as Hcs.
    simpl. unfold into_iter_next. rewrite Hcs. simpl. now rewrite Hm.
  - destruct (flat l) as [|x xs] eqn:Hf; [discriminate|].
    destruct (into_iter_next_cons N l x xs Hwf Hf) as (l' & Hn & Hwf' & Hf').
    simpl in Hm.
    change (into_iter_take N (S (S m)) l) with
      (r <- into_iter_next N l ;; let '(value, l1) := r in
       vs <- into_iter_take N (S m) l1 ;; Ret (value :: vs)).
    rewrite Hn. cbn [res_bind].
    rewrite (IH l') by (rewrite ?Hf'; auto; lia).
    rewrite Hf'. reflexivity.
Qed.

End IntoIterProps.

(** ** Empty chunks added through the public [add_new_chunk_*] *)

Section EmptyChunks.

Context {T : Type}.
Implicit Types (l : ChunkList T).

(** After [add_new_chunk_back], [pop_back] always panics: it pops the new
    empty chunk and [unwrap]s [None]. *)
Theorem add_chunk_back_pop_back_panics l :
  pop_back (add_new_chunk_back l) = Panic.
Proof.
  unfold pop_back, add_new_chunk_back. simpl.
  rewrite rev_app_distr. reflexivity.
Qed.

(** After [add_new_chunk_front] (with [N >= 1]), [pop_front] returns [None]
    yet drops the empty chunk and decrements [elements_count] (panicking
    when it is 0), and the consuming iterator's [next()] returns [None]
    and gives back the former deque. *)
Theorem add_chunk_front_pops N l :
  1 <= N ->
  pop_front N (add_new_chunk_front l) =
    (if elements_count l =? 0 then Panic
     else Ret (None, mkChunkList (chunks l) (pred (elements_count l)))) /\
  into_iter_next N (add_new_chunk_front l) = Ret (None, l).
Proof.
  intros HN. destruct l as [cs n].
  unfold pop_front, remove, into_iter_next, add_new_chunk_front,
    chunk_pop_front, chunk_remove. simpl.
  destruct (N <=? 0) eqn:H0; [apply Nat.leb_le in H0; lia|].
  unfold remove_at. simpl. split; reflexivity.
Qed.

End EmptyChunks.

(** ** The borrowing iterator beyond well-formed deques *)

Section IterationMore.

Context {T : Type}.
Implicit Types (l : ChunkList T) (c : Chunk T) (cs : list (Chunk T)).

(** [iter_next_step] needing well-formedness of the chunks ahead only. *)
Lemma iter_next_step_sfx N cs n ci ei :
  chunks_wf N (skipn ci cs) -> iter_pos_ok (skipn ci cs) ei ->
  exists ci' ei',
    iter_next N (mkChunkList cs n) ci ei =
      Ret (hd_error (remaining (skipn ci cs) ei), ci', ei') /\
    chunks_wf N (skipn ci' cs) /\ iter_pos_ok (skipn ci' cs) ei' /\
    remaining (skipn ci' cs) ei' = tl (remaining (skipn ci cs) ei).
Proof.
  intros Hwf' Hpos. unfold iter_next. simpl.
  destruct (skipn ci cs) as [|c rest] eqn:Hsk.
  - exists ci, ei. rewrite Hsk. unfold remaining. simpl.
    rewrite skipn_nil. auto.
  - simpl in Hpos. inversion Hwf' as [|? ? Hc Hrest]; subst.
    pose proof (skipn_cons_next ci cs c rest Hsk) as Hsk'.
    unfold chunk_ok, chunk_len in Hc, Hpos.
    destruct (nth_error (elements c) ei) as [x|] eqn:Hx;
      [|apply nth_error_None in Hx; lia].
    assert (Hrem : remaining (c :: rest) ei =
                   x :: skipn (S ei) (elements c) ++ concat (map elements rest)).
    { unfold remaining. simpl. rewrite skipn_app.
      replace (ei - length (elements c)) with 0 by lia. simpl.
      now rewrite (skipn_nth_cons ei (elements c) x Hx). }
    simpl. unfold chunk_get. destruct (N <=? ei) eqn:HN; [apply Nat.leb_le in HN; lia|].
    simpl. rewrite Hx. simpl. unfold chunk_len.
    destruct (length (elements c) <=? S ei) eqn:Hend.
    + apply Nat.leb_le in Hend. exists (S ci), 0.
      rewrite skipn_all2 in Hrem by lia.
      rewrite Hsk', Hrem. simpl. repeat split; [assumption|].
      apply (iter_pos_ok_start N). assumption.
    + apply Nat.leb_gt in Hend. exists ci, (S ei).
      assert (Hrem2 : remaining (c :: rest) (S ei) =
                      skipn (S ei) (elements c) ++ concat (map elements rest)).
      { unfold remaining. cbn [map concat]. rewrite skipn_app.
        replace (S ei - length (elements c)) with 0 by lia. reflexivity. }
      rewrite Hsk, Hrem, Hrem2. cbn [hd_error tl].
      split; [reflexivity|]. split; [assumption|].
      split; [simpl; unfold chunk_len; lia | reflexivity].
Qed.

(** Once nothing remains, [next()] keeps returning [None]. *)
Lemma iter_take_exhausted N cs n :
  forall k ci ei, chunks_wf N (skipn ci cs) -> iter_pos_ok (skipn ci cs) ei ->
  remaining (skipn ci cs) ei = [] ->
  iter_take N (mkChunkList cs n) k ci ei = Ret (repeat None k).
Proof.
  intros k. induction k as [|k IH]; intros ci ei Hwf Hpos Hrem; [reflexivity|].
  destruct (iter_next_step_sfx N cs n ci ei Hwf Hpos)
    as (ci' & ei' & Hnx & Hwf' & Hpos' & Hrem').
  change (iter_take N (mkChunkList cs n) (S k) ci ei)
    with (r <- iter_next N (mkChunkList cs n) ci ei ;;
          let '(value, ci0, ei0) := r in
          vs <- iter_take N (mkChunkList cs n) k ci0 ei0 ;; Ret (value :: vs)).
  rewrite Hnx, Hrem. cbn [res_bind hd_error].
  rewrite (IH ci' ei' Hwf' Hpos') by (rewrite Hrem', Hrem; reflexivity).
  reflexivity.
Qed.

Lemma iter_take_remaining_sfx N cs n :
  forall m k ci ei, chunks_wf N (skipn ci cs) -> iter_pos_ok (skipn ci cs) ei ->
  length (remaining (skipn ci cs) ei) = m ->
  iter_take N (mkChunkList cs n) (m + k) ci ei =
    Ret (map Some (remaining (skipn ci cs) ei) ++ repeat None k).
Proof.
  intros m. induction m as [|m IH]; intros k ci ei Hwf Hpos Hlen.
  - apply length_zero_iff_nil in Hlen. rewrite Hlen. simpl.
    now apply iter_take_exhausted.
  - destruct (iter_next_step_sfx N cs n ci ei Hwf Hpos)
      as (ci' & ei' & Hnx & Hwf' & Hpos' & Hrem').
    destruct (remaining (skipn ci cs) ei) as [|x xs] eqn:Hrem; [discriminate|].
    simpl in Hlen, Hrem'.
    change (iter_take N (mkChunkList cs n) (S m + k) ci ei)
      with (r <- iter_next N (mkChunkList cs n) ci ei ;;
            let '(value, ci0, ei0) := r in
            vs <- iter_take N (mkChunkList cs n) (m + k) ci0 ei0 ;; Ret (value :: vs)).
    rewrite Hnx. cbn [res_bind].
    rewrite (IH k ci' ei' Hwf' Hpos') by (rewrite Hrem'; lia).
    rewrite Hrem'. reflexivity.
Qed.

(** On a deque whose chunks hold 1 to [N] elements, [iter()] yields the
    contents and then [None] on every further call. *)
Theorem iter_fused N l k :
  chunks_wf N (chunks l) ->
  iter_take N l (length (flat l) + k) 0 0 = Ret (map Some (flat l) ++ repeat None k).
Proof.
  intros Hwf. destruct l as [cs n].
  exact (iter_take_remaining_sfx N cs n _ k 0 0 Hwf (iter_pos_ok_start N cs Hwf)
           eq_refl).
Qed.

(** After [add_new_chunk_front] on a deque whose first chunk holds at least
    two elements [x, y, ...], [iter()] yields [x] and then jumps to the
    next chunk: the rest of the first chunk is never produced.  (The
    [None] branch of [Iter::next] recurses, and the caller then advances
    past the empty chunk's length once more.) *)
Theorem add_chunk_front_iter_skips N l (x y : T) ys rest :
  chunks_wf N (chunks l) -> chunks l = mkChunk (x :: y :: ys) :: rest ->
  iter_take N (add_new_chunk_front l)
    (S (length (concat (map elements rest)) + 1)) 0 0 =
  Ret (Some x :: map Some (concat (map elements rest)) ++ [None]).
Proof.
  intros Hwf Hcs. destruct l as [cs n]. simpl in *. subst cs.
  inversion Hwf as [|? ? Hc Hrest]; subst.
  assert (HN : 1 <= N) by (unfold chunk_ok in Hc; lia).
  unfold add_new_chunk_front. simpl.
  set (cs' := chunk_new :: mkChunk (x :: y :: ys) :: rest).
  assert (Hnx : iter_next N (mkChunkList cs' n) 0 0 = Ret (Some x, 2, 0)).
  { unfold iter_next, cs'. simpl. unfold chunk_get.
    destruct (N <=? 0) eqn:H0; [apply Nat.leb_le in H0; lia|]. reflexivity. }
  change (iter_take N (mkChunkList cs' n)
            (S (length (concat (map elements rest)) + 1)) 0 0)
    with (r <- iter_next N (mkChunkList cs' n) 0 0 ;;
          let '(value, ci0, ei0) := r in
          vs <- iter_take N (mkChunkList cs' n)
                  (length (concat (map elements rest)) + 1) ci0 ei0 ;;
          Ret (value :: vs)).
  rewrite Hnx. cbn [res_bind].
  pose proof (iter_take_remaining_sfx N cs' n _ 1 2 0 Hrest
                (iter_pos_ok_start N rest Hrest) eq_refl) as Hit.
  change (remaining (skipn 2 cs') 0) with (concat (map elements rest)) in Hit.
  rewrite Hit. reflexivity.
Qed.

End IterationMore.

(** * Witnesses for the further properties *)

Lemma chunk_push_back_bounded_witness :
  chunk_len (mkChunk [1]) <= 2 /\
  ((chunk_len (mkChunk [1]) = 2 /\ chunk_push_back 2 (mkChunk [1]) 9 = (false, mkChunk [1])) \/
   (chunk_len (mkChunk [1]) < 2 /\
    chunk_push_back 2 (mkChunk [1]) 9 = (true, mkChunk (elements (mkChunk [1]) ++ [9])) /\
    chunk_len (mkChunk (elements (mkChunk [1]) ++ [9])) <= 2)).
Proof.
  split; [unfold chunk_len; simpl; lia|].
  apply (chunk_push_back_bounded 2 (mkChunk [1]) 9). unfold chunk_len; simpl; lia.
Defined.

Lemma chunk_push_front_bounded_witness :
  chunk_len (mkChunk [1; 2]) <= 2 /\
  ((chunk_len (mkChunk [1; 2]) = 2 /\
    chunk_push_front 2 (mkChunk [1; 2]) 9 = (false, mkChunk [1; 2])) \/
   (chunk_len (mkChunk [1; 2]) < 2 /\
    chunk_push_front 2 (mkChunk [1; 2]) 9 =
      (true, mkChunk (9 :: elements (mkChunk [1; 2]))) /\
    chunk_len (mkChunk (9 :: elements (mkChunk [1; 2]))) <= 2)).
Proof.
  split; [unfold chunk_len; simpl; lia|].
  apply (chunk_push_front_bounded 2 (mkChunk [1; 2]) 9). unfold chunk_len; simpl; lia.
Defined.

Lemma chunk_push_back_pop_back_witness :
  chunk_is_full 3 (mkChunk [1; 2]) = false /\
  chunk_pop_back (snd (chunk_push_back 3 (mkChunk [1; 2]) 9)) = (Some 9, mkChunk [1; 2]).
Proof.
  split; [reflexivity|]. apply chunk_push_back_pop_back. reflexivity.
Defined.

Lemma chunk_push_front_pop_front_witness :
  1 <= 3 /\ chunk_is_full 3 (mkChunk [1; 2]) = false /\
  chunk_pop_front 3 (snd (chunk_push_front 3 (mkChunk [1; 2]) 9)) =
    Ret (Some 9, mkChunk [1; 2]).
Proof.
  split; [lia|]. split; [reflexivity|].
  apply chunk_push_front_pop_front; [lia | reflexivity].
Defined.

Lemma chunk_pops_on_empty_witness :
  elements (chunk_new (T:=nat)) = [] /\
  chunk_pop_back (chunk_new (T:=nat)) = (None, chunk_new) /\
  chunk_pop_front 0 (chunk_new (T:=nat)) = (if 0 =? 0 then Panic else Ret (None, chunk_new)).
Proof.
  split; [reflexivity|]. apply chunk_pops_on_empty. reflexivity.
Defined.

Lemma push_back_pop_back_witness :
  1 <= 2 /\ chunks_wf 2 (chunks deque_321) /\
  pop_back (push_back 2 deque_321 9) = Ret (Some 9, deque_321).
Proof.
  split; [lia|]. split; [exact deque_321_wf|].
  apply push_back_pop_back; [lia | exact deque_321_wf].
Defined.

Lemma push_front_pop_front_witness :
  1 <= 2 /\ chunks_wf 2 (chunks deque_321) /\
  pop_front 2 (push_front 2 deque_321 9) = Ret (Some 9, deque_321).
Proof.
  split; [lia|]. split; [exact deque_321_wf|].
  apply push_front_pop_front; [lia | exact deque_321_wf].
Defined.

Lemma count_matches_contents_except_clear_witness :
  elements_count deque_321 = length (flat deque_321) /\
  (OpPopBack (T:=nat)) <> OpClear /\
  apply_op 2 OpPopBack deque_321 = Ret (mkChunkList [mkChunk [3]; mkChunk [2]] 2) /\
  elements_count (mkChunkList [mkChunk [3]; mkChunk [2]] 2) =
    length (flat (mkChunkList [mkChunk [3]; mkChunk [2]] 2)).
Proof.
  split; [reflexivity|]. split; [discriminate|]. split; [reflexivity|].
  apply (count_matches_contents_except_clear 2 OpPopBack deque_321);
    [lia | exact deque_321_wf | reflexivity | discriminate | reflexivity].
Defined.


Lemma into_iter_drains_witness :
  chunks_wf 2 (chunks deque_321) /\
  into_iter_take 2 4 deque_321 = Ret [Some 3; Some 2; Some 1; None].
Proof.
  split; [exact deque_321_wf|]. apply (into_iter_drains 2 deque_321 deque_321_wf).
Defined.

Lemma add_chunk_front_pops_witness :
  1 <= 2 /\
  pop_front 2 (add_new_chunk_front deque_321) =
    Ret (None, mkChunkList (chunks deque_321) 2) /\
  into_iter_next 2 (add_new_chunk_front deque_321) = Ret (None, deque_321).
Proof.
  split; [lia|]. apply (add_chunk_front_pops 2 deque_321). lia.
Defined.

Lemma iter_fused_witness :
  chunks_wf 2 (chunks deque_321) /\
  iter_take 2 deque_321 5 0 0 = Ret [Some 3; Some 2; Some 1; None; None].
Proof.
  split; [exact deque_321_wf|]. apply (iter_fused 2 deque_321 2 deque_321_wf).
Defined.

Definition deque_4321 : ChunkList nat :=
  push_front_all 2 [1; 2; 3; 4] (mkChunkList [] 0).

Lemma deque_4321_wf : chunks_wf 2 (chunks deque_4321).
Proof. repeat constructor; unfold chunk_ok, chunk_len; simpl; lia. Qed.

(** With chunks [4, 3] and [2, 1], the element 3 is never produced. *)
Lemma add_chunk_front_iter_skips_witness :
  chunks_wf 2 (chunks deque_4321) /\
  chunks deque_4321 = mkChunk [4; 3] :: [mkChunk [2; 1]] /\
  iter_take 2 (add_new_chunk_front deque_4321) 4 0 0 = Ret [Some 4; Some 2; Some 1; None].
Proof.
  split; [exact deque_4321_wf|]. split; [reflexivity|].
  apply (add_chunk_front_iter_skips 2 deque_4321 4 3 [] [mkChunk [2; 1]]);
    [exact deque_4321_wf | reflexivity].
Defined.
